(** * Retrieval graph: routing, retrieval with deduplication, generation

    A shallow embedding of [backend/src/retrieval_graph/graph.ts] and the
    properties its specification states about it.

    Conventions of the embedding:
    - a JavaScript object used as a string-keyed map ([additional_kwargs],
      [response_metadata]) is a [gmap string JsValue];
    - the mutable [Set<string>] of [retrieveDocuments] is a [gset string]
      threaded through the filter;
    - [async] functions that call the chat model or the retriever run in
      a small monad that records every external call and propagates the
      first error ([Eff]);
    - a [throw new Error(msg)] is the outcome [inl (Error msg)]. *)

From stdpp Require Import base option list strings pretty gmap.
From Stdlib Require Import ZArith Lia Ascii.

Set Warnings "-clear-no-such-hyp".

Local Open Scope string_scope.
Local Open Scope list_scope.

(** ** JavaScript values stored in metadata objects *)

Inductive JsValue : Type :=
| JUndefined
| JNull
| JBool (b : bool)
| JNum (n : Z)
| JStr (s : string).

(** ** Messages ([@langchain/core/messages])

    [_getType()] answers one of the library's message type tags. *)

Inductive MessageType : Type :=
| human | ai | generic | developer | system | function | tool | remove.

#[global] Instance MessageType_eq_dec : EqDecision MessageType.
Proof. solve_decision. Defined.

(** The fields of a [BaseMessage]: the ones [graph.ts] reads ([content],
    [additional_kwargs], the type tag) and the remaining ones a message
    constructor accepts ([name], [id], [response_metadata]).  Content is
    text. *)

Record BaseMessage : Type := mkMessage {
  _getType : MessageType;
  content : string;
  additional_kwargs : gmap string JsValue;
  response_metadata : gmap string JsValue;
  msg_name : option string;
  msg_id : option string;
}.

(** [new HumanMessage({content, additional_kwargs})] and
    [new AIMessage({content, additional_kwargs})]: a field that is not
    passed gets the constructor's default. *)

Definition HumanMessage (c : string) (kw : gmap string JsValue) : BaseMessage :=
  {| _getType := human; content := c; additional_kwargs := kw;
     response_metadata := ∅; msg_name := None; msg_id := None |}.

Definition AIMessage (c : string) (kw : gmap string JsValue) : BaseMessage :=
  {| _getType := ai; content := c; additional_kwargs := kw;
     response_metadata := ∅; msg_name := None; msg_id := None |}.

(** [new HumanMessage(text)] *)
Definition HumanMessageText (c : string) : BaseMessage := HumanMessage c ∅.

(** ** normalizeMessages *)

(** The callback of [messages.map]: copy [additional_kwargs], delete the
    key [name] when it is there, rebuild the message by its type. *)

Definition strip_name (kw : gmap string JsValue) : gmap string JsValue :=
  let additionalKwargs := kw in
  if decide (is_Some (additionalKwargs !! "name"))
  then delete "name" additionalKwargs
  else additionalKwargs.

Definition normalizeMessage (message : BaseMessage) : BaseMessage :=
  let type := _getType message in
  let additionalKwargs := strip_name (additional_kwargs message) in
  match type with
  | human => HumanMessage (content message) additionalKwargs
  | ai => AIMessage (content message) additionalKwargs
  | _ => HumanMessage (content message) additionalKwargs
  end.

Definition normalizeMessages (messages : list BaseMessage) : list BaseMessage :=
  map normalizeMessage messages.

(** What "only the role tag and the [name] key change" means for one
    message and its image: every other field is the same. *)

Definition same_outside_role_and_name (m m' : BaseMessage) : Prop :=
  content m' = content m
  ∧ (∀ k : string, k ≠ "name" → additional_kwargs m' !! k = additional_kwargs m !! k)
  ∧ response_metadata m' = response_metadata m
  ∧ msg_name m' = msg_name m
  ∧ msg_id m' = msg_id m.

(** ** Documents ([@langchain/core/documents])

    The metadata fields [retrieveDocuments] reads, with the types the
    loaders give them: [source] and [filename] are text,
    [loc.pageNumber] is an integer page number.  Every one of them may
    be missing, and so may [metadata] and [loc] themselves (the code
    reads them through [?.]). *)

Record Loc : Type := mkLoc {
  pageNumber : option Z;
}.

Record Metadata : Type := mkMetadata {
  source : option string;
  filename : option string;
  loc : option Loc;
}.

Record Document : Type := mkDocument {
  pageContent : string;
  metadata : option Metadata;
}.

(** [a || b] on possibly-missing text: [undefined] and the empty string
    are the falsy values. *)

Definition truthy (a : option string) : bool :=
  match a with
  | Some s => bool_decide (s ≠ "")
  | None => false
  end.

Definition js_or (a b : option string) : option string :=
  if truthy a then a else b.

(** The value of [page]: a number, or the text of the fallback. *)

Inductive NumOrText : Type :=
| IsNum (n : Z)
| IsText (s : string).

#[global] Instance NumOrText_eq_dec : EqDecision NumOrText.
Proof. solve_decision. Defined.

(** [a ?? b]: only a missing value takes the fallback. *)

Definition js_nullish (a : option Z) (b : string) : NumOrText :=
  match a with
  | Some n => IsNum n
  | None => IsText b
  end.

(** Conversion to text inside a template literal; an integer is printed
    in decimal with a leading [-] when negative (JavaScript does so for
    every integer below [10^21] in absolute value). *)

Definition toString (v : NumOrText) : string :=
  match v with
  | IsNum n => pretty n
  | IsText s => s
  end.

(** [doc.metadata?.source || doc.metadata?.filename || 'unknown-source'] *)

Definition docSource (doc : Document) : string :=
  default "unknown-source"
    (js_or (js_or (metadata doc ≫= source) (metadata doc ≫= filename))
           (Some "unknown-source")).

(** [doc.metadata?.loc?.pageNumber ?? 'unknown-page'] *)

Definition docPage (doc : Document) : NumOrText :=
  js_nullish ((metadata doc ≫= loc) ≫= pageNumber) "unknown-page".

(** [`${source}::${page}`] *)

Definition docKey (doc : Document) : string :=
  docSource doc +:+ "::" +:+ toString (docPage doc).

(** The (source, page) identity of a document. *)

Definition identity (doc : Document) : string * NumOrText :=
  (docSource doc, docPage doc).

(** [has_char c s]: the character [c] occurs in [s].  The separator of
    the key is made of colons; [has_colon] tells whether a text has one. *)

Fixpoint has_char (c : ascii) (s : string) : bool :=
  match s with
  | EmptyString => false
  | String c' s' => bool_decide (c' = c) || has_char c s'
  end.

Definition has_colon (s : string) : bool := has_char ":"%char s.

(** [not_in_numbers c]: the character [c] occurs in the decimal text of
    no integer, which is made of digits and [-]. *)

Definition not_in_numbers (c : ascii) : Prop :=
  c ≠ "-"%char ∧ ∀ x : N, pretty_N_char x ≠ c.

(** The [filter] callback with its captured [seen] set, as a left-to-right
    pass: a document whose key is in [seen] is dropped, any other is kept
    and its key added. *)

Fixpoint filter_seen (seen : gset string) (response : list Document) : list Document :=
  match response with
  | [] => []
  | doc :: rest =>
      let key := docKey doc in
      if decide (key ∈ seen)
      then filter_seen seen rest
      else doc :: filter_seen ({[key]} ∪ seen) rest
  end.

Definition uniqueDocuments (response : list Document) : list Document :=
  filter_seen ∅ response.

(** ** Workflow state *)

(** [state.route] is read as a JavaScript string that may be missing:
    [routeQuery] has a branch for a string that is neither ['retrieve']
    nor ['direct']. *)

Record AgentState : Type := mkState {
  query : string;
  route : option string;
  documents : list Document;
  messages : list BaseMessage;
}.

(** What a node returns: the channels it writes. *)

Record Update : Type := mkUpdate {
  upd_route : option string;
  upd_documents : option (list Document);
  upd_messages : option (list BaseMessage);
}.

(** Modelled from the spec: the channel reducers of [state.ts], which is
    not part of the sources at hand.  [route] and [documents] are set by
    the node that writes them; [messages] is appended to. *)

Definition applyUpdate (state : AgentState) (u : Update) : AgentState :=
  {| query := query state;
     route := match upd_route u with Some r => Some r | None => route state end;
     documents := default (documents state) (upd_documents u);
     messages := messages state ++ default [] (upd_messages u) |}.

(** ** External calls *)

Inductive JsError : Type :=
| Error (message : string).

Inductive Call : Type :=
| ModelInvoke (model : string) (input : list BaseMessage)
| ModelInvokeStructured (model : string) (prompt : string)
| RetrieverInvoke (q : string).

(** A computation answers an error or a value, and lists the external
    calls it made, in order. *)

Definition Eff (A : Type) : Type := list Call * (JsError + A).

Definition ret {A} (a : A) : Eff A := ([], inr a).

Definition throw {A} (e : JsError) : Eff A := ([], inl e).

Definition bind {A B} (c : Eff A) (k : A → Eff B) : Eff B :=
  match c with
  | (calls, inl e) => (calls, inl e)
  | (calls, inr a) => let '(calls', r) := k a in (calls ++ calls', r)
  end.

Notation "'await' x ← c1 ; c2" := (bind c1 (λ x, c2))
  (at level 10, x name, c1 at level 100, c2 at level 200).

Definition calls {A} (c : Eff A) : list Call := fst c.
Definition outcome {A} (c : Eff A) : JsError + A := snd c.

(** The structured answer of the router model, after the [zod] schema
    [{route: enum(['retrieve','direct']), directAnswer: string().optional()}]
    accepted it. *)

Inductive RouteTag : Type := retrieve | direct.

Definition RouteTag_text (r : RouteTag) : string :=
  match r with
  | retrieve => "retrieve"
  | direct => "direct"
  end.

Record RouterOutput : Type := mkRouterOutput {
  out_route : RouteTag;
  directAnswer : option string;
}.

(** The collaborators of the graph: the configured model name, the chat
    model (plain and with structured output), the retriever, the two
    prompt templates and [formatDocs].  A call to a model or to the
    retriever may fail. *)

Record Services : Type := mkServices {
  queryModel : string;
  model_invoke : string → list BaseMessage → JsError + BaseMessage;
  model_invoke_structured : string → string → JsError + RouterOutput;
  retriever_invoke : string → JsError + list Document;
  ROUTER_SYSTEM_PROMPT : string → string;
  RESPONSE_SYSTEM_PROMPT : string → string → string;
  formatDocs : list Document → string;
}.

Definition invokeModel (svc : Services) (model : string)
    (input : list BaseMessage) : Eff BaseMessage :=
  ([ModelInvoke model input], model_invoke svc model input).

Definition invokeStructured (svc : Services) (model : string)
    (prompt : string) : Eff RouterOutput :=
  ([ModelInvokeStructured model prompt], model_invoke_structured svc model prompt).

Definition invokeRetriever (svc : Services) (q : string) : Eff (list Document) :=
  ([RetrieverInvoke q], retriever_invoke svc q).

(** ** The nodes *)

Definition checkQueryType (svc : Services) (state : AgentState) : Eff Update :=
  let model := queryModel svc in
  let formattedPrompt := ROUTER_SYSTEM_PROMPT svc (query state) in
  await response ← invokeStructured svc model formattedPrompt ;
  let route := out_route response in
  ret {| upd_route := Some (RouteTag_text route);
         upd_documents := None; upd_messages := None |}.

Definition answerQueryDirectly (svc : Services) (state : AgentState) : Eff Update :=
  let model := queryModel svc in
  let userHumanMessage := HumanMessageText (query state) in
  await response ← invokeModel svc model (normalizeMessages [userHumanMessage]) ;
  ret {| upd_route := None; upd_documents := None;
         upd_messages := Some [userHumanMessage; response] |}.

Inductive NodeName : Type :=
| retrieveDocumentsNode
| directAnswerNode.

Definition routeQuery (state : AgentState) : Eff NodeName :=
  match route state with
  | None => throw (Error "Route is not set")
  | Some route =>
      if decide (route = "") then throw (Error "Route is not set")
      else if decide (route = "retrieve") then ret retrieveDocumentsNode
      else if decide (route = "direct") then ret directAnswerNode
      else throw (Error "Invalid route")
  end.

Definition retrieveDocuments (svc : Services) (state : AgentState) : Eff Update :=
  await response ← invokeRetriever svc (query state) ;
  ret {| upd_route := None; upd_documents := Some (uniqueDocuments response);
         upd_messages := None |}.

Definition generateResponse (svc : Services) (state : AgentState) : Eff Update :=
  let context := formatDocs svc (documents state) in
  let model := queryModel svc in
  let formattedPrompt := RESPONSE_SYSTEM_PROMPT svc (query state) context in
  let userHumanMessage := HumanMessageText (query state) in
  let formattedPromptMessage := HumanMessageText formattedPrompt in
  let messageHistory :=
    normalizeMessages (messages state ++ [formattedPromptMessage]) in
  await response ← invokeModel svc model messageHistory ;
  ret {| upd_route := None; upd_documents := None;
         upd_messages := Some [userHumanMessage; response] |}.

(** ** The graph

    [START → checkQueryType → routeQuery →
       retrieveDocuments → generateResponse → END | directAnswer → END];
    each node's update is applied before the next node runs. *)

Definition runNode (node : AgentState → Eff Update) (state : AgentState) : Eff AgentState :=
  await u ← node state ; ret (applyUpdate state u).

Definition graph (svc : Services) (state : AgentState) : Eff AgentState :=
  await state1 ← runNode (checkQueryType svc) state ;
  await next ← routeQuery state1 ;
  match next with
  | retrieveDocumentsNode =>
      await state2 ← runNode (retrieveDocuments svc) state1 ;
      runNode (generateResponse svc) state2
  | directAnswerNode =>
      runNode (answerQueryDirectly svc) state1
  end.

(** ** Notions used to state further properties *)

(** A turn as [normalizeMessages] leaves it: a human or assistant turn
    without the key [name], whose other fields are the constructor's
    defaults. *)

Definition is_normalized (m : BaseMessage) : Prop :=
  (_getType m = human ∨ _getType m = ai)
  ∧ additional_kwargs m !! "name" = None
  ∧ response_metadata m = ∅
  ∧ msg_name m = None
  ∧ msg_id m = None.

(** The calls the nodes make, by the state they run in: the router call
    of [checkQueryType], the model input of [answerQueryDirectly], the
    model input of [generateResponse] with [docs] for [state.documents]. *)

Definition routerCall (svc : Services) (state : AgentState) : Call :=
  ModelInvokeStructured (queryModel svc) (ROUTER_SYSTEM_PROMPT svc (query state)).

Definition directInput (state : AgentState) : list BaseMessage :=
  [HumanMessageText (query state)].

Definition generationInput (svc : Services) (state : AgentState)
    (docs : list Document) : list BaseMessage :=
  normalizeMessages (messages state)
  ++ [HumanMessageText
        (RESPONSE_SYSTEM_PROMPT svc (query state) (formatDocs svc docs))].

(** The input of a chat-model call is made of normalized turns. *)

Definition call_input_normalized (c : Call) : Prop :=
  match c with
  | ModelInvoke _ input => Forall is_normalized input
  | _ => True
  end.

(** The error the services answer to a call, when they answer one. *)


(** The runs of the graph from [state]: which services answered what,
    the calls made and the outcome. *)

Inductive GraphRun (svc : Services) (state : AgentState) : Eff AgentState → Prop :=
| run_router_fails e :
    model_invoke_structured svc (queryModel svc)
      (ROUTER_SYSTEM_PROMPT svc (query state)) = inl e →
    GraphRun svc state ([routerCall svc state], inl e)
| run_direct_fails out e :
    model_invoke_structured svc (queryModel svc)
      (ROUTER_SYSTEM_PROMPT svc (query state)) = inr out →
    out_route out = direct →
    model_invoke svc (queryModel svc) (directInput state) = inl e →
    GraphRun svc state
      ([routerCall svc state; ModelInvoke (queryModel svc) (directInput state)],
       inl e)
| run_direct out response :
    model_invoke_structured svc (queryModel svc)
      (ROUTER_SYSTEM_PROMPT svc (query state)) = inr out →
    out_route out = direct →
    model_invoke svc (queryModel svc) (directInput state) = inr response →
    GraphRun svc state
      ([routerCall svc state; ModelInvoke (queryModel svc) (directInput state)],
       inr {| query := query state; route := Some "direct";
              documents := documents state;
              messages := messages state
                          ++ [HumanMessageText (query state); response] |})
| run_retriever_fails out e :
    model_invoke_structured svc (queryModel svc)
      (ROUTER_SYSTEM_PROMPT svc (query state)) = inr out →
    out_route out = retrieve →
    retriever_invoke svc (query state) = inl e →
    GraphRun svc state
      ([routerCall svc state; RetrieverInvoke (query state)], inl e)
| run_generation_fails out docs e :
    model_invoke_structured svc (queryModel svc)
      (ROUTER_SYSTEM_PROMPT svc (query state)) = inr out →
    out_route out = retrieve →
    retriever_invoke svc (query state) = inr docs →
    model_invoke svc (queryModel svc)
      (generationInput svc state (uniqueDocuments docs)) = inl e →
    GraphRun svc state
      ([routerCall svc state; RetrieverInvoke (query state);
        ModelInvoke (queryModel svc)
          (generationInput svc state (uniqueDocuments docs))],
       inl e)
| run_retrieve out docs response :
    model_invoke_structured svc (queryModel svc)
      (ROUTER_SYSTEM_PROMPT svc (query state)) = inr out →
    out_route out = retrieve →
    retriever_invoke svc (query state) = inr docs →
    model_invoke svc (queryModel svc)
      (generationInput svc state (uniqueDocuments docs)) = inr response →
    GraphRun svc state
      ([routerCall svc state; RetrieverInvoke (query state);
        ModelInvoke (queryModel svc)
          (generationInput svc state (uniqueDocuments docs))],
       inr {| query := query state; route := Some "retrieve";
              documents := uniqueDocuments docs;
              messages := messages state
                          ++ [HumanMessageText (query state); response] |}).

(** ** Sample inputs *)

(** Two documents that carry a file name and nothing else. *)

Definition doc_filename_a : Document :=
  {| pageContent := "alpha";
     metadata := Some {| source := None; filename := Some "a.pdf"; loc := None |} |}.

Definition doc_filename_b : Document :=
  {| pageContent := "beta";
     metadata := Some {| source := None; filename := Some "b.pdf"; loc := None |} |}.

(** Two documents without any metadata. *)

Definition doc_bare_a : Document := {| pageContent := "alpha"; metadata := None |}.
Definition doc_bare_b : Document := {| pageContent := "beta"; metadata := None |}.

(** A page of a report, as a PDF loader labels it. *)

Definition report_page (text : string) (file : string) (page : Z) : Document :=
  {| pageContent := text;
     metadata := Some {| source := Some file; filename := None;
                         loc := Some {| pageNumber := Some page |} |} |}.

(** An assistant message as a model returns it, with an id, response
    metadata and a [name] entry in [additional_kwargs]. *)

Definition msg_with_id : BaseMessage :=
  {| _getType := ai; content := "Paris";
     additional_kwargs := {[ "name" := JStr "bot"; "refusal" := JNull ]};
     response_metadata := {[ "finish_reason" := JStr "stop" ]};
     msg_name := Some "assistant-1";
     msg_id := Some "run-1" |}.

(** Services whose router always answers [r] (with an inline direct
    answer), whose chat model always answers ["Paris"] and whose
    retriever always answers the two bare documents. *)

Definition sample_services (r : RouteTag) : Services :=
  {| queryModel := "query-model";
     model_invoke := λ _ _, inr (AIMessage "Paris" ∅);
     model_invoke_structured := λ _ _,
       inr {| out_route := r; directAnswer := Some "Paris" |};
     retriever_invoke := λ _, inr [doc_bare_a; doc_bare_b];
     ROUTER_SYSTEM_PROMPT := λ q, "Route this query: " +:+ q;
     RESPONSE_SYSTEM_PROMPT := λ q ctx, "Context: " +:+ ctx +:+ " Question: " +:+ q;
     formatDocs := λ docs, String.concat "; " (pageContent <$> docs) |}.

Definition sample_state (r : option string) : AgentState :=
  {| query := "What is the capital of France?"; route := r;
     documents := []; messages := [] |}.

(** [svc] with the router model's structured answer fixed to [answer]. *)

Definition with_router_answer (svc : Services) (answer : JsError + RouterOutput) : Services :=
  {| queryModel := queryModel svc;
     model_invoke := model_invoke svc;
     model_invoke_structured := λ _ _, answer;
     retriever_invoke := retriever_invoke svc;
     ROUTER_SYSTEM_PROMPT := ROUTER_SYSTEM_PROMPT svc;
     RESPONSE_SYSTEM_PROMPT := RESPONSE_SYSTEM_PROMPT svc;
     formatDocs := formatDocs svc |}.

(** [sample_services retrieve] with a retriever that is down. *)


(** Projections of a run and of a state, computed. *)

Ltac graph_run_simpl :=
  cbn [calls outcome fst snd app query route documents messages].

(** * Properties of the normalizer *)

Section Normalizer.

Implicit Types (m : BaseMessage) (ms : list BaseMessage) (kw : gmap string JsValue).

Lemma strip_name_delete kw : strip_name kw = delete "name" kw.
Proof.
  unfold strip_name. case_decide as H; [done|].
  symmetry. apply delete_id. by apply eq_None_not_Some.
Qed.

Lemma strip_name_lookup_name kw : strip_name kw !! "name" = None.
Proof. rewrite strip_name_delete. apply lookup_delete_eq. Qed.

Lemma strip_name_lookup_other kw (k : string) :
  k ≠ "name" → strip_name kw !! k = kw !! k.
Proof. intros Hk. rewrite strip_name_delete. by apply lookup_delete_ne. Qed.

Lemma strip_name_idemp kw : strip_name (strip_name kw) = strip_name kw.
Proof. rewrite !strip_name_delete. apply delete_id, lookup_delete_eq. Qed.

Lemma normalizeMessage_kwargs m :
  additional_kwargs (normalizeMessage m) = strip_name (additional_kwargs m).
Proof. by destruct m as [[] ? ? ? ? ?]. Qed.

Lemma normalizeMessage_content m : content (normalizeMessage m) = content m.
Proof. by destruct m as [[] ? ? ? ? ?]. Qed.

Lemma normalizeMessage_type m :
  _getType (normalizeMessage m) = if decide (_getType m = ai) then ai else human.
Proof. by destruct m as [[] ? ? ? ? ?]. Qed.

Lemma normalizeMessage_defaults m :
  response_metadata (normalizeMessage m) = ∅
  ∧ msg_name (normalizeMessage m) = None
  ∧ msg_id (normalizeMessage m) = None.
Proof. by destruct m as [[] ? ? ? ? ?]. Qed.

Lemma normalizeMessage_idemp m :
  normalizeMessage (normalizeMessage m) = normalizeMessage m.
Proof.
  destruct m as [[] c kw rm n i]; unfold normalizeMessage; simpl;
    unfold HumanMessage, AIMessage; by rewrite strip_name_idemp.
Qed.

Lemma normalizeMessages_app ms1 ms2 :
  normalizeMessages (ms1 ++ ms2) = normalizeMessages ms1 ++ normalizeMessages ms2.
Proof. apply map_app. Qed.

Lemma normalizeMessage_HumanMessageText (c : string) :
  normalizeMessage (HumanMessageText c) = HumanMessageText c.
Proof. reflexivity. Qed.

(** ** Small runs *)

Example normalizeMessages_msg_with_id :
  normalizeMessages [msg_with_id; HumanMessageText "hello"]
  = [AIMessage "Paris" {[ "refusal" := JNull ]}; HumanMessageText "hello"].
Proof. reflexivity. Qed.

(** ** The claims about the normalizer *)

(** C5.  For every sequence of turns, the normalized sequence has one
    turn per input turn, in order; no normalized turn has the key [name]
    in its [additional_kwargs] (it is removed when present and never
    introduced), and the role of a normalized turn is [ai] when the
    input turn's role is [ai] and [human] for every other role. *)
Theorem normalizeMessages_strips_name_maps_role ms :
  Forall2
    (λ m m',
       additional_kwargs m' !! "name" = None
       ∧ (_getType m' = human ∨ _getType m' = ai)
       ∧ _getType m' = (if decide (_getType m = ai) then ai else human))
    ms (normalizeMessages ms).
Proof.
  unfold normalizeMessages. induction ms as [|m ms IH]; simpl; constructor; [|done].
  rewrite normalizeMessage_kwargs, normalizeMessage_type.
  split; [apply strip_name_lookup_name|].
  split; [case_decide; auto|done].
Qed.

(** C6.  Normalizing twice is normalizing once. *)
Theorem normalizeMessages_idempotent ms :
  normalizeMessages (normalizeMessages ms) = normalizeMessages ms.
Proof.
  unfold normalizeMessages. rewrite map_map.
  apply map_ext. intros m. apply normalizeMessage_idemp.
Qed.

(** C7, as the code has it.  For every turn, the normalized turn has the
    same text content and the same [additional_kwargs] entries under
    every key other than [name]; the fields that are not handed to the
    message constructor ([response_metadata], [name], [id]) are not
    carried over: they are the constructor's defaults. *)
Theorem normalizeMessages_frame ms :
  Forall2
    (λ m m',
       content m' = content m
       ∧ (∀ k : string,
            additional_kwargs m' !! k
            = if decide (k = "name") then None else additional_kwargs m !! k)
       ∧ response_metadata m' = ∅
       ∧ msg_name m' = None
       ∧ msg_id m' = None)
    ms (normalizeMessages ms).
Proof.
  unfold normalizeMessages. induction ms as [|m ms IH]; simpl; constructor; [|done].
  split; [apply normalizeMessage_content|].
  split; [|apply normalizeMessage_defaults].
  intros k. rewrite normalizeMessage_kwargs. case_decide as Hk.
  - subst k. apply strip_name_lookup_name.
  - by apply strip_name_lookup_other.
Qed.

(** C7, as stated, fails: the id, the name and the response metadata of
    a turn are lost by normalization. *)
Lemma normalizeMessages_drops_id_counterexample :
  ¬ Forall2 same_outside_role_and_name [msg_with_id] (normalizeMessages [msg_with_id]).
Proof.
  intros H. apply Forall2_cons_1 in H as [(_ & _ & _ & _ & Hid) _].
  discriminate Hid.
Qed.

End Normalizer.

(** * Properties of the deduplication *)

Section Deduplication.

Implicit Types (d doc : Document) (l response : list Document) (seen : gset string).

(** ** The key determines the identity *)

Lemma has_char_app (c : ascii) (s t : string) :
  has_char c (s +:+ t) = has_char c s || has_char c t.
Proof. induction s as [|c' s IH]; simpl; [done|]. by rewrite IH, orb_assoc. Qed.

Lemma pretty_N_go_no_char (c : ascii) (x : N) (s : string) :
  not_in_numbers c → has_char c s = false → has_char c (pretty_N_go x s) = false.
Proof.
  intros [_ Hc]. revert s. induction (N.lt_wf_0 x) as [x _ IH]; intros s Hs.
  assert (x = 0 ∨ 0 < x)%N as [->|Hx] by lia.
  - by rewrite pretty_N_go_0.
  - rewrite pretty_N_go_step by done. apply IH.
    + by apply N.div_lt.
    + simpl. rewrite Hs, orb_false_r. apply bool_decide_eq_false, Hc.
Qed.

Lemma pretty_N_no_char (c : ascii) (x : N) :
  not_in_numbers c → has_char c (pretty x) = false.
Proof.
  intros Hc. unfold pretty, pretty_N. case_decide.
  - simpl. rewrite orb_false_r. apply bool_decide_eq_false.
    destruct Hc as [_ Hc]. apply (Hc 0%N).
  - by apply pretty_N_go_no_char.
Qed.

Lemma pretty_Z_no_char (c : ascii) (n : Z) :
  not_in_numbers c → has_char c (pretty n) = false.
Proof.
  intros Hc. destruct n as [|p|p]; unfold pretty, pretty_Z.
  - apply (pretty_N_no_char c 0 Hc).
  - by apply pretty_N_no_char.
  - rewrite has_char_app. apply orb_false_intro.
    + simpl. rewrite orb_false_r. apply bool_decide_eq_false.
      destruct Hc as [Hc _]. congruence.
    + by apply (pretty_N_no_char c (Npos p)).
Qed.

Lemma colon_not_in_numbers : not_in_numbers ":"%char.
Proof. split; [done|]. intros x. unfold pretty_N_char. by repeat case_match. Qed.

Lemma u_not_in_numbers : not_in_numbers "u"%char.
Proof. split; [done|]. intros x. unfold pretty_N_char. by repeat case_match. Qed.

Lemma docPage_no_colon doc : has_colon (toString (docPage doc)) = false.
Proof.
  unfold docPage, js_nullish, has_colon.
  destruct (_ ≫= pageNumber) as [n|]; simpl; [|done].
  apply pretty_Z_no_char, colon_not_in_numbers.
Qed.

Lemma append_nil_l (t : string) : "" +:+ t = t.
Proof. reflexivity. Qed.

Lemma append_cons (c : ascii) (s t : string) :
  String c s +:+ t = String c (s +:+ t).
Proof. reflexivity. Qed.

(** A text without colon is no [x ++ "::" ++ y]. *)
Lemma no_colon_not_sep (p x y : string) :
  has_colon p = false → p ≠ x +:+ "::" +:+ y.
Proof.
  unfold has_colon. intros Hp ->. rewrite !has_char_app in Hp.
  apply orb_false_elim in Hp as [_ Hp]. apply orb_false_elim in Hp as [Hp _].
  done.
Qed.

Lemma sep_inj (s1 s2 p1 p2 : string) :
  has_colon p1 = false → has_colon p2 = false →
  s1 +:+ "::" +:+ p1 = s2 +:+ "::" +:+ p2 → s1 = s2 ∧ p1 = p2.
Proof.
  intros H1 H2. revert s2.
  induction s1 as [|c s1 IH]; intros [|c' s2] Heq;
    rewrite ?append_cons, ?append_nil_l in Heq.
  - by simplify_eq.
  - exfalso. injection Heq as <- Heq.
    destruct s2 as [|c'' s2]; rewrite ?append_cons, ?append_nil_l in Heq.
    + injection Heq as Heq. by rewrite Heq in H1.
    + injection Heq as Hc Heq. by apply (no_colon_not_sep p1 s2 p2).
  - exfalso. injection Heq as -> Heq.
    destruct s1 as [|c'' s1]; rewrite ?append_cons, ?append_nil_l in Heq.
    + injection Heq as Heq. by rewrite <-Heq in H2.
    + injection Heq as Hc Heq. by apply (no_colon_not_sep p2 s1 p1).
  - injection Heq as -> Heq. destruct (IH _ Heq) as [-> ->]. done.
Qed.

Lemma pretty_Z_not_unknown_page (n : Z) : pretty n ≠ "unknown-page".
Proof.
  intros Heq. pose proof (pretty_Z_no_char _ n u_not_in_numbers) as Hn.
  by rewrite Heq in Hn.
Qed.

Lemma docPage_toString_inj d1 d2 :
  toString (docPage d1) = toString (docPage d2) → docPage d1 = docPage d2.
Proof.
  unfold docPage, js_nullish.
  destruct (_ ≫= pageNumber) as [n1|], (_ ≫= pageNumber) as [n2|]; simpl; intros Heq.
  - f_equal. by apply (inj pretty).
  - by destruct (pretty_Z_not_unknown_page n1).
  - by destruct (pretty_Z_not_unknown_page n2).
  - done.
Qed.

Lemma docKey_identity d1 d2 : docKey d1 = docKey d2 ↔ identity d1 = identity d2.
Proof.
  unfold docKey, identity. split.
  - intros Heq. apply sep_inj in Heq as [Hs Hp]; auto using docPage_no_colon.
    apply docPage_toString_inj in Hp. congruence.
  - intros [= -> ->]. done.
Qed.

(** ** The pass over the retriever's answer *)

Lemma filter_seen_sublist seen l : filter_seen seen l `sublist_of` l.
Proof.
  revert seen. induction l as [|d l IH]; intros seen; simpl; [constructor|].
  case_decide; [apply sublist_cons|apply sublist_skip]; apply IH.
Qed.

Lemma filter_seen_fresh seen l d : d ∈ filter_seen seen l → docKey d ∉ seen.
Proof.
  revert seen. induction l as [|d' l IH]; intros seen; simpl.
  - by intros ?%elem_of_nil.
  - case_decide as Hseen.
    + apply IH.
    + intros [->|Hd]%elem_of_cons; [done|].
      apply IH in Hd. set_solver.
Qed.

Lemma filter_seen_NoDup_keys seen l : NoDup (docKey <$> filter_seen seen l).
Proof.
  revert seen. induction l as [|d l IH]; intros seen; simpl; [constructor|].
  case_decide as Hseen; [apply IH|].
  rewrite fmap_cons. apply NoDup_cons. split; [|apply IH].
  intros (d' & Hkey & Hd')%list_elem_of_fmap.
  apply filter_seen_fresh in Hd'. set_solver.
Qed.

Lemma filter_seen_covers seen l d :
  d ∈ l → docKey d ∈ seen ∨ docKey d ∈ docKey <$> filter_seen seen l.
Proof.
  revert seen. induction l as [|d' l IH]; intros seen; simpl.
  - by intros ?%elem_of_nil.
  - intros [->|Hd]%elem_of_cons.
    + case_decide; [by left|right]. rewrite fmap_cons. apply elem_of_cons. by left.
    + case_decide as Hseen; [by apply IH|].
      destruct (IH ({[docKey d']} ∪ seen) Hd) as [Hin|Hin].
      * apply elem_of_union in Hin as [->%elem_of_singleton|?]; [|by left].
        right. rewrite fmap_cons. apply elem_of_cons. by left.
      * right. rewrite fmap_cons. apply elem_of_cons. by right.
Qed.

Lemma filter_seen_app seen l1 l2 :
  filter_seen seen (l1 ++ l2)
  = filter_seen seen l1 ++ filter_seen (list_to_set (docKey <$> l1) ∪ seen) l2.
Proof.
  revert seen. induction l1 as [|d l1 IH]; intros seen; simpl.
  - f_equal. set_solver.
  - case_decide as Hseen.
    + rewrite IH. do 2 f_equal. set_solver.
    + rewrite IH. simpl. do 3 f_equal. set_solver.
Qed.

Lemma key_seen_identity d l :
  docKey d ∈ (list_to_set (docKey <$> l) ∪ ∅ : gset string)
  ↔ identity d ∈ identity <$> l.
Proof.
  rewrite elem_of_union, elem_of_list_to_set, !list_elem_of_fmap.
  split.
  - intros [(d' & Hk & Hd')|?%elem_of_empty]; [|done].
    exists d'. split; [by apply docKey_identity|done].
  - intros (d' & Hi & Hd'). left. exists d'. split; [by apply docKey_identity|done].
Qed.

(** One more document at the end of the answer: it is kept exactly when
    no earlier document has its identity. *)
Lemma uniqueDocuments_snoc l d :
  uniqueDocuments (l ++ [d])
  = uniqueDocuments l ++ (if decide (identity d ∈ identity <$> l) then [] else [d]).
Proof.
  unfold uniqueDocuments. rewrite filter_seen_app. f_equal. simpl.
  pose proof (key_seen_identity d l) as Hiff.
  repeat case_decide; tauto.
Qed.

Lemma uniqueDocuments_prefix l1 l2 :
  uniqueDocuments l1 `prefix_of` uniqueDocuments (l1 ++ l2).
Proof. unfold uniqueDocuments. rewrite filter_seen_app. by eexists. Qed.

(** A document whose identity occurred before is dropped and leaves no
    trace. *)
Lemma uniqueDocuments_drop_later l d post :
  identity d ∈ identity <$> l →
  uniqueDocuments (l ++ d :: post) = uniqueDocuments (l ++ post).
Proof.
  intros Hin. unfold uniqueDocuments. rewrite !filter_seen_app. f_equal. simpl.
  apply key_seen_identity in Hin. by rewrite decide_True.
Qed.

(** ** Small runs *)

Example docKey_report_page :
  docKey (report_page "Section 3" "reportA.pdf" 3) = "reportA.pdf::3".
Proof. reflexivity. Qed.

Example docKey_bare : docKey doc_bare_a = "unknown-source::unknown-page".
Proof. reflexivity. Qed.

Example uniqueDocuments_three :
  uniqueDocuments [report_page "Section 3" "reportA.pdf" 3;
                   report_page "Section 3, again" "reportA.pdf" 3;
                   report_page "Section 4" "reportA.pdf" 4]
  = [report_page "Section 3" "reportA.pdf" 3;
     report_page "Section 4" "reportA.pdf" 4].
Proof. reflexivity. Qed.

Example uniqueDocuments_colon_in_source :
  uniqueDocuments [report_page "x" "a::1" 2; report_page "y" "a" 1;
                   report_page "z" "a::1" 2]
  = [report_page "x" "a::1" 2; report_page "y" "a" 1].
Proof. reflexivity. Qed.

(** ** The claims about deduplication *)

(** C1.  For every list of retrieved documents the deduplicated list is a
    subsequence of it (relative order kept) whose documents have pairwise
    distinct (source, page) identities and which has a document for every
    identity of the input; scanning the input from the left, the document
    at position [i] is kept exactly when no earlier document has its
    identity, so the document kept for an identity is its first
    occurrence. *)
Theorem uniqueDocuments_first_occurrence_per_identity response :
  uniqueDocuments response `sublist_of` response
  ∧ NoDup (identity <$> uniqueDocuments response)
  ∧ Forall (λ d, identity d ∈ identity <$> uniqueDocuments response) response
  ∧ ∀ i : nat,
      uniqueDocuments (take i response) `prefix_of` uniqueDocuments response
      ∧ uniqueDocuments (take (S i) response)
        = uniqueDocuments (take i response)
          ++ match response !! i with
             | Some d =>
                 if decide (identity d ∈ identity <$> take i response)
                 then [] else [d]
             | None => []
             end.
Proof.
  split_and!.
  - apply filter_seen_sublist.
  - pose proof (filter_seen_NoDup_keys ∅ response) as Hnd.
    eapply (NoDup_fmap_1 (λ i, fst i +:+ "::" +:+ toString (snd i))).
    by rewrite <-list_fmap_compose.
  - apply Forall_forall. intros d Hd.
    destruct (filter_seen_covers ∅ response d Hd) as [?%elem_of_empty|Hin]; [done|].
    apply list_elem_of_fmap in Hin as (d' & Hk & Hd').
    apply list_elem_of_fmap. exists d'. split; [|done].
    by apply docKey_identity.
  - intros i. split.
    + rewrite <-(take_drop i response) at 2. apply uniqueDocuments_prefix.
    + destruct (response !! i) as [d|] eqn:Hi.
      * rewrite (take_S_r _ _ _ Hi). apply uniqueDocuments_snoc.
      * apply lookup_ge_None in Hi.
        rewrite !take_ge by lia. by rewrite app_nil_r.
Qed.

(** C8, as the code has it.  A document whose [source] and [filename]
    metadata are both absent has the source component ["unknown-source"];
    a document whose page metadata is absent has the page component
    ["unknown-page"]; two documents that lack source, file name and page
    have the same identity, and the later one is dropped as a duplicate
    of the earlier one wherever they stand in the retriever's answer. *)
Theorem unknown_identity_fallback d :
  (metadata d ≫= source = None → metadata d ≫= filename = None →
     docSource d = "unknown-source")
  ∧ ((metadata d ≫= loc) ≫= pageNumber = None → docPage d = IsText "unknown-page")
  ∧ ∀ d' pre mid post,
      metadata d ≫= source = None → metadata d ≫= filename = None →
      (metadata d ≫= loc) ≫= pageNumber = None →
      metadata d' ≫= source = None → metadata d' ≫= filename = None →
      (metadata d' ≫= loc) ≫= pageNumber = None →
      identity d' = identity d
      ∧ uniqueDocuments (pre ++ d :: mid ++ d' :: post)
        = uniqueDocuments (pre ++ d :: mid ++ post).
Proof.
  assert (∀ x, metadata x ≫= source = None → metadata x ≫= filename = None →
               docSource x = "unknown-source") as Hsrc.
  { intros x Hs Hf. unfold docSource. by rewrite Hs, Hf. }
  assert (∀ x, (metadata x ≫= loc) ≫= pageNumber = None →
               docPage x = IsText "unknown-page") as Hpage.
  { intros x Hp. unfold docPage. by rewrite Hp. }
  split_and!; [apply Hsrc|apply Hpage|].
  intros d' pre mid post Hs Hf Hp Hs' Hf' Hp'.
  assert (identity d' = identity d) as Hid.
  { unfold identity. by rewrite !Hsrc, !Hpage. }
  split; [done|].
  replace (pre ++ d :: mid ++ d' :: post) with ((pre ++ d :: mid) ++ d' :: post)
    by (by rewrite <-app_assoc).
  replace (pre ++ d :: mid ++ post) with ((pre ++ d :: mid) ++ post)
    by (by rewrite <-app_assoc).
  apply uniqueDocuments_drop_later.
  rewrite Hid. apply list_elem_of_fmap. exists d. split; [done|].
  apply elem_of_app. right. apply elem_of_cons. by left.
Qed.

Lemma unknown_identity_fallback_witness :
  docSource doc_bare_a = "unknown-source"
  ∧ docPage doc_bare_a = IsText "unknown-page"
  ∧ identity doc_bare_b = identity doc_bare_a
  ∧ uniqueDocuments ([] ++ doc_bare_a :: [doc_filename_a] ++ doc_bare_b :: [])
    = uniqueDocuments ([] ++ doc_bare_a :: [doc_filename_a] ++ []).
Proof.
  destruct (unknown_identity_fallback doc_bare_a) as (Hsrc & Hpage & Hdup).
  split; [apply Hsrc; reflexivity|].
  split; [apply Hpage; reflexivity|].
  apply (Hdup doc_bare_b [] [doc_filename_a] []); reflexivity.
Defined.

(** C8, as stated, fails: a document without [source] takes its
    [filename] as source component, and two documents that lack both
    source and page but have different file names have different
    identities and are both kept. *)
Lemma filename_fallback_counterexample :
  (metadata doc_filename_a ≫= source = None
   ∧ (metadata doc_filename_a ≫= loc) ≫= pageNumber = None
   ∧ metadata doc_filename_b ≫= source = None
   ∧ (metadata doc_filename_b ≫= loc) ≫= pageNumber = None)
  ∧ docSource doc_filename_a = "a.pdf"
  ∧ docSource doc_filename_a ≠ "unknown-source"
  ∧ identity doc_filename_b ≠ identity doc_filename_a
  ∧ uniqueDocuments [doc_filename_a; doc_filename_b]
    = [doc_filename_a; doc_filename_b].
Proof. split_and!; done. Qed.

(** C10.  The source component is the [source] metadata only when it is
    truthy: a non-empty source is taken as it is, an empty source gives
    what a missing source gives (the [filename], when that is non-empty),
    and an empty source with an empty file name gives ["unknown-source"].
    The page component is [loc.pageNumber] whenever it is there: page
    number [0] is kept, its key ends in ["::0"], and only a missing page
    number or a missing [loc] gives ["unknown-page"]. *)
Theorem docKey_source_truthy_page_nullish
    (c : string) (a : ascii) (s : string) (src fn : option string)
    (l : option Loc) (n : Z) :
  docSource (mkDocument c (Some (mkMetadata (Some (String a s)) fn l))) = String a s
  ∧ docSource (mkDocument c (Some (mkMetadata (Some "") fn l)))
    = docSource (mkDocument c (Some (mkMetadata None fn l)))
  ∧ docSource (mkDocument c (Some (mkMetadata (Some "") (Some (String a s)) l)))
    = String a s
  ∧ docSource (mkDocument c (Some (mkMetadata (Some "") (Some "") l)))
    = "unknown-source"
  ∧ docPage (mkDocument c (Some (mkMetadata src fn (Some (mkLoc (Some n)))))) = IsNum n
  ∧ docPage (mkDocument c (Some (mkMetadata src fn (Some (mkLoc (Some 0%Z))))))
    ≠ IsText "unknown-page"
  ∧ docKey (mkDocument c (Some (mkMetadata (Some (String a s)) fn
                                  (Some (mkLoc (Some 0%Z))))))
    = String a s +:+ "::0"
  ∧ docPage (mkDocument c (Some (mkMetadata src fn (Some (mkLoc None)))))
    = IsText "unknown-page"
  ∧ docPage (mkDocument c (Some (mkMetadata src fn None))) = IsText "unknown-page".
Proof. split_and!; done. Qed.

End Deduplication.

(** * Properties of the nodes and of the graph *)

Section Workflow.

Implicit Types (svc : Services) (st state : AgentState).

Lemma bind_ret_l {A B} (a : A) (k : A → Eff B) : bind (ret a) k = k a.
Proof. unfold bind, ret. by destruct (k a). Qed.

Lemma bind_call_ok {A B} (c : Call) (a : A) (k : A → Eff B) :
  bind ([c], inr a) k = (c :: calls (k a), outcome (k a)).
Proof. unfold bind, calls, outcome. by destruct (k a). Qed.

Lemma routeQuery_no_calls st : calls (routeQuery st) = [].
Proof.
  unfold routeQuery. destruct (route st) as [r|]; [|done].
  by repeat case_decide.
Qed.

(** The model input of [generateResponse]: the normalized history, then
    the rendered prompt as a human turn. *)
Lemma generateResponse_input (history : list BaseMessage) (prompt : string) :
  normalizeMessages (history ++ [HumanMessageText prompt])
  = normalizeMessages history ++ [HumanMessageText prompt].
Proof. by rewrite normalizeMessages_app. Qed.

Lemma answerQueryDirectly_calls svc st :
  calls (answerQueryDirectly svc st)
  = [ModelInvoke (queryModel svc) [HumanMessageText (query st)]].
Proof.
  unfold answerQueryDirectly, invokeModel. simpl.
  rewrite normalizeMessage_HumanMessageText.
  by destruct (model_invoke _ _ _).
Qed.

Lemma routeQuery_retrieve st :
  route st = Some "retrieve" → routeQuery st = ret retrieveDocumentsNode.
Proof. intros Hr. unfold routeQuery. by rewrite Hr. Qed.

Lemma routeQuery_direct st :
  route st = Some "direct" → routeQuery st = ret directAnswerNode.
Proof. intros Hr. unfold routeQuery. by rewrite Hr. Qed.

(** The router node when the model's answer passes the schema. *)
Lemma runNode_checkQueryType svc st out :
  model_invoke_structured svc (queryModel svc) (ROUTER_SYSTEM_PROMPT svc (query st))
    = inr out →
  runNode (checkQueryType svc) st
  = ([ModelInvokeStructured (queryModel svc) (ROUTER_SYSTEM_PROMPT svc (query st))],
     inr {| query := query st; route := Some (RouteTag_text (out_route out));
            documents := documents st; messages := messages st |}).
Proof.
  intros Hrouter. unfold runNode, checkQueryType, invokeStructured.
  rewrite Hrouter. unfold bind, ret, applyUpdate. simpl. by rewrite app_nil_r.
Qed.

Lemma runNode_answerQueryDirectly svc st response :
  model_invoke svc (queryModel svc) [HumanMessageText (query st)] = inr response →
  runNode (answerQueryDirectly svc) st
  = ([ModelInvoke (queryModel svc) [HumanMessageText (query st)]],
     inr {| query := query st; route := route st; documents := documents st;
            messages := messages st ++ [HumanMessageText (query st); response] |}).
Proof.
  intros Hmodel. unfold runNode, answerQueryDirectly, invokeModel. simpl.
  rewrite normalizeMessage_HumanMessageText, Hmodel. reflexivity.
Qed.

Lemma runNode_retrieveDocuments svc st response :
  retriever_invoke svc (query st) = inr response →
  runNode (retrieveDocuments svc) st
  = ([RetrieverInvoke (query st)],
     inr {| query := query st; route := route st;
            documents := uniqueDocuments response; messages := messages st |}).
Proof.
  intros Hretriever. unfold runNode, retrieveDocuments, invokeRetriever.
  rewrite Hretriever. unfold bind, ret, applyUpdate. simpl. by rewrite app_nil_r.
Qed.

Lemma runNode_generateResponse svc st response :
  model_invoke svc (queryModel svc)
    (normalizeMessages (messages st)
     ++ [HumanMessageText
           (RESPONSE_SYSTEM_PROMPT svc (query st) (formatDocs svc (documents st)))])
    = inr response →
  runNode (generateResponse svc) st
  = ([ModelInvoke (queryModel svc)
        (normalizeMessages (messages st)
         ++ [HumanMessageText
               (RESPONSE_SYSTEM_PROMPT svc (query st) (formatDocs svc (documents st)))])],
     inr {| query := query st; route := route st; documents := documents st;
            messages := messages st ++ [HumanMessageText (query st); response] |}).
Proof.
  intros Hmodel. unfold runNode, generateResponse, invokeModel.
  rewrite generateResponse_input, Hmodel. reflexivity.
Qed.

(** X16.  The retrieval path, end to end: router, retriever, model, in this
    order; the prompt is rendered from the deduplicated documents. *)
Lemma graph_retrieve_path svc st out docs response :
  model_invoke_structured svc (queryModel svc) (ROUTER_SYSTEM_PROMPT svc (query st))
    = inr out →
  out_route out = retrieve →
  retriever_invoke svc (query st) = inr docs →
  model_invoke svc (queryModel svc)
    (normalizeMessages (messages st)
     ++ [HumanMessageText
           (RESPONSE_SYSTEM_PROMPT svc (query st)
              (formatDocs svc (uniqueDocuments docs)))])
    = inr response →
  graph svc st
  = ([ModelInvokeStructured (queryModel svc) (ROUTER_SYSTEM_PROMPT svc (query st));
      RetrieverInvoke (query st);
      ModelInvoke (queryModel svc)
        (normalizeMessages (messages st)
         ++ [HumanMessageText
               (RESPONSE_SYSTEM_PROMPT svc (query st)
                  (formatDocs svc (uniqueDocuments docs)))])],
     inr {| query := query st; route := Some "retrieve";
            documents := uniqueDocuments docs;
            messages := messages st ++ [HumanMessageText (query st); response] |}).
Proof.
  intros Hrouter Hretrieve Hretriever Hmodel. unfold graph.
  rewrite (runNode_checkQueryType svc st out Hrouter), Hretrieve, bind_call_ok.
  rewrite routeQuery_retrieve, bind_ret_l by done.
  rewrite (runNode_retrieveDocuments _ _ docs) by done.
  rewrite bind_call_ok.
  by rewrite (runNode_generateResponse _ _ response).
Qed.

(** A router answer that fails the schema ends the run after the router
    call. *)
Lemma graph_router_failure svc st e :
  model_invoke_structured svc (queryModel svc) (ROUTER_SYSTEM_PROMPT svc (query st))
    = inl e →
  graph svc st
  = ([ModelInvokeStructured (queryModel svc) (ROUTER_SYSTEM_PROMPT svc (query st))],
     inl e).
Proof.
  intros Hrouter. unfold graph, runNode, checkQueryType, invokeStructured.
  by rewrite Hrouter.
Qed.

Example graph_retrieve_sample :
  outcome (graph (sample_services retrieve) (sample_state None))
  = inr {| query := "What is the capital of France?"; route := Some "retrieve";
           documents := [doc_bare_a];
           messages := [HumanMessageText "What is the capital of France?";
                        AIMessage "Paris" ∅] |}.
Proof. reflexivity. Qed.

(** ** The claims about routing *)

(** C2, as the code has it.  The dispatch makes no external call and its
    outcome is decided by the [route] field alone: ["retrieve"] selects
    the retrieval node, ["direct"] the direct-answer node; an unset route
    and the empty text fail with "Route is not set"; every other text
    fails with "Invalid route". *)
Theorem routeQuery_dispatch st :
  calls (routeQuery st) = []
  ∧ (∀ st', route st' = route st → routeQuery st' = routeQuery st)
  ∧ (route st = Some "retrieve" → outcome (routeQuery st) = inr retrieveDocumentsNode)
  ∧ (route st = Some "direct" → outcome (routeQuery st) = inr directAnswerNode)
  ∧ (route st = None ∨ route st = Some "" →
       outcome (routeQuery st) = inl (Error "Route is not set"))
  ∧ (∀ r, route st = Some r → r ≠ "" → r ≠ "retrieve" → r ≠ "direct" →
       outcome (routeQuery st) = inl (Error "Invalid route")).
Proof.
  split_and!.
  - apply routeQuery_no_calls.
  - intros st' Hr. unfold routeQuery. by rewrite Hr.
  - intros Hr. unfold routeQuery. by rewrite Hr.
  - intros Hr. unfold routeQuery. by rewrite Hr.
  - intros [Hr|Hr]; unfold routeQuery; by rewrite Hr.
  - intros r Hr H1 H2 H3. unfold routeQuery. rewrite Hr.
    by rewrite !decide_False.
Qed.

Lemma routeQuery_dispatch_witness :
  routeQuery (mkState "another query" (Some "retrieve") [doc_bare_a] [])
  = routeQuery (sample_state (Some "retrieve"))
  ∧ outcome (routeQuery (sample_state (Some "retrieve"))) = inr retrieveDocumentsNode
  ∧ outcome (routeQuery (sample_state (Some "direct"))) = inr directAnswerNode
  ∧ outcome (routeQuery (sample_state None)) = inl (Error "Route is not set")
  ∧ outcome (routeQuery (sample_state (Some ""))) = inl (Error "Route is not set")
  ∧ outcome (routeQuery (sample_state (Some "summarize"))) = inl (Error "Invalid route").
Proof.
  split_and!.
  - apply (routeQuery_dispatch (sample_state (Some "retrieve"))). reflexivity.
  - apply (routeQuery_dispatch (sample_state (Some "retrieve"))). reflexivity.
  - apply (routeQuery_dispatch (sample_state (Some "direct"))). reflexivity.
  - apply (routeQuery_dispatch (sample_state None)). left. reflexivity.
  - apply (routeQuery_dispatch (sample_state (Some ""))). right. reflexivity.
  - destruct (routeQuery_dispatch (sample_state (Some "summarize")))
      as (_ & _ & _ & _ & _ & Hinvalid).
    apply (Hinvalid "summarize"); [reflexivity|discriminate..].
Defined.

(** C2, as stated, fails: the empty text is a value of [route] other
    than ["retrieve"] and ["direct"], and it does not fail with
    "Invalid route". *)
Lemma routeQuery_empty_route_counterexample :
  ¬ (∀ st r, route st = Some r → r ≠ "retrieve" → r ≠ "direct" →
       outcome (routeQuery st) = inl (Error "Invalid route")).
Proof.
  intros Hclaim.
  specialize (Hclaim (sample_state (Some "")) "" eq_refl).
  discriminate Hclaim; discriminate.
Qed.

(** ** The claims about the answering nodes *)

(** C3.  For every state, [generateResponse] makes one external call,
    the invocation of the configured model on the normalized prior
    [messages] followed by one human turn holding the rendered response
    prompt (query and formatted documents substituted).  When the model
    answers, the node writes to [messages] a human turn holding the
    query itself and then the model's answer, and these two turns are
    appended to the history; when the model fails, its error is the
    node's outcome. *)
Theorem generateResponse_prompt_to_model_query_to_history svc st :
  let prompt :=
    RESPONSE_SYSTEM_PROMPT svc (query st) (formatDocs svc (documents st)) in
  let input := normalizeMessages (messages st) ++ [HumanMessageText prompt] in
  calls (generateResponse svc st) = [ModelInvoke (queryModel svc) input]
  ∧ outcome (generateResponse svc st)
    = match model_invoke svc (queryModel svc) input with
      | inl e => inl e
      | inr response =>
          inr {| upd_route := None; upd_documents := None;
                 upd_messages := Some [HumanMessageText (query st); response] |}
      end
  ∧ outcome (runNode (generateResponse svc) st)
    = match model_invoke svc (queryModel svc) input with
      | inl e => inl e
      | inr response =>
          inr {| query := query st; route := route st; documents := documents st;
                 messages := messages st ++ [HumanMessageText (query st); response] |}
      end.
Proof.
  intros prompt input. unfold runNode, generateResponse, invokeModel.
  rewrite generateResponse_input. fold prompt. fold input.
  destruct (model_invoke svc (queryModel svc) input) as [e|response]; [done|].
  rewrite !bind_call_ok. simpl. by split_and!.
Qed.

(** C4.  [answerQueryDirectly] makes one external call in every state,
    the invocation of the model on the single human turn holding the
    query, and none to the retriever.  In an invocation that the router
    routes direct and in which the model answers, the graph makes the
    router call and that model call and no other, and ends in the
    initial state with [route] set and with two turns appended to
    [messages]: the human turn holding the query, then the model's
    answer; [documents] is as it was (empty when it was empty). *)
Theorem direct_path_appends_two_turns svc st out response :
  model_invoke_structured svc (queryModel svc) (ROUTER_SYSTEM_PROMPT svc (query st))
    = inr out →
  out_route out = direct →
  model_invoke svc (queryModel svc) [HumanMessageText (query st)] = inr response →
  (∀ st', calls (answerQueryDirectly svc st')
          = [ModelInvoke (queryModel svc) [HumanMessageText (query st')]])
  ∧ outcome (answerQueryDirectly svc st)
    = inr {| upd_route := None; upd_documents := None;
             upd_messages := Some [HumanMessageText (query st); response] |}
  ∧ graph svc st
    = ([ModelInvokeStructured (queryModel svc) (ROUTER_SYSTEM_PROMPT svc (query st));
        ModelInvoke (queryModel svc) [HumanMessageText (query st)]],
       inr {| query := query st; route := Some "direct";
              documents := documents st;
              messages := messages st ++ [HumanMessageText (query st); response] |}).
Proof.
  intros Hrouter Hdirect Hmodel. split_and!.
  - apply answerQueryDirectly_calls.
  - unfold answerQueryDirectly, invokeModel. simpl.
    rewrite normalizeMessage_HumanMessageText. by rewrite Hmodel.
  - unfold graph.
    rewrite (runNode_checkQueryType svc st out Hrouter), Hdirect, bind_call_ok.
    rewrite routeQuery_direct, bind_ret_l by done.
    by rewrite (runNode_answerQueryDirectly _ _ response).
Qed.

Lemma direct_path_appends_two_turns_witness :
  graph (sample_services direct) (sample_state None)
  = ([ModelInvokeStructured "query-model"
        "Route this query: What is the capital of France?";
      ModelInvoke "query-model" [HumanMessageText "What is the capital of France?"]],
     inr {| query := "What is the capital of France?"; route := Some "direct";
            documents := [];
            messages := [HumanMessageText "What is the capital of France?";
                         AIMessage "Paris" ∅] |}).
Proof.
  apply (direct_path_appends_two_turns (sample_services direct) (sample_state None)
           {| out_route := direct; directAnswer := Some "Paris" |}
           (AIMessage "Paris" ∅)); reflexivity.
Defined.

(** ** The claim about the router *)

(** C9.  For every two structured answers of the router model that have
    the same [route], whatever their [directAnswer], [checkQueryType]
    gives the same result (external calls and update), and so does the
    whole graph. *)
Theorem checkQueryType_ignores_directAnswer svc st (out1 out2 : RouterOutput) :
  out_route out1 = out_route out2 →
  checkQueryType (with_router_answer svc (inr out1)) st
  = checkQueryType (with_router_answer svc (inr out2)) st
  ∧ graph (with_router_answer svc (inr out1)) st
    = graph (with_router_answer svc (inr out2)) st.
Proof.
  intros Hroute.
  assert (checkQueryType (with_router_answer svc (inr out1)) st
          = checkQueryType (with_router_answer svc (inr out2)) st) as Hcheck.
  { unfold checkQueryType, invokeStructured. simpl. by rewrite Hroute. }
  split; [done|].
  unfold graph, runNode. by rewrite Hcheck.
Qed.

Lemma checkQueryType_ignores_directAnswer_witness :
  checkQueryType
    (with_router_answer (sample_services retrieve)
       (inr {| out_route := direct; directAnswer := Some "Paris" |}))
    (sample_state None)
  = checkQueryType
      (with_router_answer (sample_services retrieve)
         (inr {| out_route := direct; directAnswer := None |}))
      (sample_state None)
  ∧ graph
      (with_router_answer (sample_services retrieve)
         (inr {| out_route := direct; directAnswer := Some "Paris" |}))
      (sample_state None)
    = graph
        (with_router_answer (sample_services retrieve)
           (inr {| out_route := direct; directAnswer := None |}))
        (sample_state None).
Proof.
  apply (checkQueryType_ignores_directAnswer (sample_services retrieve)
           (sample_state None)
           {| out_route := direct; directAnswer := Some "Paris" |}
           {| out_route := direct; directAnswer := None |}).
  reflexivity.
Defined.

End Workflow.

(** * Further properties of the normalizer *)

Section NormalizerFixedPoints.

Implicit Types (m : BaseMessage) (ms : list BaseMessage).

Lemma normalizeMessage_is_normalized m : is_normalized (normalizeMessage m).
Proof.
  unfold is_normalized.
  rewrite normalizeMessage_type, normalizeMessage_kwargs.
  split; [case_decide; auto|].
  split; [apply strip_name_lookup_name|apply normalizeMessage_defaults].
Qed.



End NormalizerFixedPoints.

(** * Further properties of the deduplication *)

Section DeduplicationAlgebra.

Implicit Types (d doc : Document) (l response : list Document) (seen : gset string).

(** A pass over documents with fresh, pairwise different identities
    keeps them all. *)
Lemma filter_seen_all_fresh seen l :
  (∀ d, d ∈ l → docKey d ∉ seen) → NoDup (identity <$> l) → filter_seen seen l = l.
Proof.
  revert seen. induction l as [|d l IH]; intros seen Hfresh Hnd; simpl; [done|].
  rewrite fmap_cons in Hnd. apply NoDup_cons in Hnd as [Hd Hnd].
  rewrite decide_False by (apply Hfresh; by left).
  f_equal. apply IH; [|done].
  intros d' Hd' [Hk%elem_of_singleton|Hs]%elem_of_union.
  - apply Hd. apply docKey_identity in Hk. rewrite <-Hk.
    apply list_elem_of_fmap. by exists d'.
  - apply (Hfresh d'); [by right|done].
Qed.

Lemma uniqueDocuments_NoDup l : NoDup (identity <$> uniqueDocuments l).
Proof.
  pose proof (filter_seen_NoDup_keys ∅ l) as Hnd.
  eapply (NoDup_fmap_1 (λ i, fst i +:+ "::" +:+ toString (snd i))).
  by rewrite <-list_fmap_compose.
Qed.

(** The pass with a larger [seen] set is the pass with the smaller one,
    followed by the removal of the documents whose key is among the
    added ones. *)
Lemma filter_seen_union (added seen : gset string) l :
  filter_seen (added ∪ seen) l
  = filter (λ d, docKey d ∉ added) (filter_seen seen l).
Proof.
  revert seen. induction l as [|d l IH]; intros seen; simpl; [done|].
  destruct (decide (docKey d ∈ seen)) as [Hs|Hs].
  - rewrite decide_True by set_solver. apply IH.
  - destruct (decide (docKey d ∈ added)) as [Ha|Ha].
    + rewrite decide_True by set_solver.
      rewrite filter_cons_False by (intros Hn; by apply Hn).
      rewrite <-IH. f_equal. set_solver.
    + rewrite decide_False by set_solver.
      rewrite filter_cons_True by done.
      f_equal. rewrite <-IH. f_equal. set_solver.
Qed.

Lemma keys_of_uniqueDocuments l :
  (list_to_set (docKey <$> uniqueDocuments l) : gset string)
  = list_to_set (docKey <$> l).
Proof.
  apply set_eq. intros k. rewrite !elem_of_list_to_set, !list_elem_of_fmap. split.
  - intros (d & -> & Hd). exists d. split; [done|].
    eapply elem_of_sublist; [done|apply filter_seen_sublist].
  - intros (d & -> & Hd).
    destruct (filter_seen_covers ∅ l d Hd) as [?%elem_of_empty|Hin]; [done|].
    by apply list_elem_of_fmap in Hin.
Qed.

(** X2.  Deduplicating twice is deduplicating once. *)
Theorem uniqueDocuments_idempotent response :
  uniqueDocuments (uniqueDocuments response) = uniqueDocuments response.
Proof.
  apply filter_seen_all_fresh; [|apply uniqueDocuments_NoDup].
  intros d _ ?%elem_of_empty. done.
Qed.

(** X3.  The answers that deduplication leaves as they are are exactly the
    answers whose documents have pairwise different (source, page)
    identities. *)
Theorem uniqueDocuments_unchanged_iff_NoDup response :
  uniqueDocuments response = response ↔ NoDup (identity <$> response).
Proof.
  split.
  - intros Heq. rewrite <-Heq. apply uniqueDocuments_NoDup.
  - intros Hnd. apply filter_seen_all_fresh; [|done].
    intros d _ ?%elem_of_empty. done.
Qed.

(** X4.  The first document of the answer is always kept, as the first
    document; nothing is added; and only an empty answer gives an empty
    list. *)
Theorem uniqueDocuments_keeps_head response :
  head (uniqueDocuments response) = head response
  ∧ (length (uniqueDocuments response) ≤ length response)%nat
  ∧ (uniqueDocuments response = [] ↔ response = []).
Proof.
  split_and!.
  - destruct response as [|d l]; [done|].
    unfold uniqueDocuments; simpl. by rewrite decide_False by set_solver.
  - apply sublist_length, filter_seen_sublist.
  - destruct response as [|d l]; [done|].
    unfold uniqueDocuments; simpl. rewrite decide_False by set_solver. done.
Qed.

(** X5.  Deduplicating two answers put end to end: the first answer
    deduplicated, then the second answer deduplicated without the
    documents whose identity occurs in the first. *)
Theorem uniqueDocuments_app (l1 l2 : list Document) :
  uniqueDocuments (l1 ++ l2)
  = uniqueDocuments l1
    ++ filter (λ d, identity d ∉ identity <$> l1) (uniqueDocuments l2).
Proof.
  unfold uniqueDocuments. rewrite filter_seen_app, filter_seen_union. f_equal.
  apply list_filter_iff. intros d.
  pose proof (key_seen_identity d l1) as Hiff.
  rewrite elem_of_union in Hiff. rewrite <-Hiff. set_solver.
Qed.

(** X6.  The number of documents kept is the number of different keys in the
    answer. *)
Theorem uniqueDocuments_length_distinct_keys response :
  length (uniqueDocuments response)
  = size (list_to_set (docKey <$> response) : gset string).
Proof.
  rewrite <-keys_of_uniqueDocuments.
  rewrite size_list_to_set by apply filter_seen_NoDup_keys.
  by rewrite length_fmap.
Qed.

(** X7.  Two documents have the same key exactly when they have the same
    source component and the same page component, also when a source
    contains the separator. *)
Theorem docKey_injective (d1 d2 : Document) :
  docKey d1 = docKey d2 ↔ docSource d1 = docSource d2 ∧ docPage d1 = docPage d2.
Proof.
  rewrite docKey_identity. unfold identity. split.
  - by intros [= -> ->].
  - by intros [-> ->].
Qed.

(** X8.  The text of a document plays no part: of two documents with the same
    metadata the later one is dropped, whatever the two texts are and
    wherever the two stand, and the result is what it is without it. *)
Theorem uniqueDocuments_ignores_pageContent
    (text text' : string) (md : option Metadata) (pre mid post : list Document) :
  uniqueDocuments (pre ++ mkDocument text md :: mid ++ mkDocument text' md :: post)
  = uniqueDocuments (pre ++ mkDocument text md :: mid ++ post).
Proof.
  replace (pre ++ mkDocument text md :: mid ++ mkDocument text' md :: post)
    with ((pre ++ mkDocument text md :: mid) ++ mkDocument text' md :: post)
    by (by rewrite <-app_assoc).
  replace (pre ++ mkDocument text md :: mid ++ post)
    with ((pre ++ mkDocument text md :: mid) ++ post)
    by (by rewrite <-app_assoc).
  apply uniqueDocuments_drop_later.
  apply list_elem_of_fmap. exists (mkDocument text md). split; [done|].
  apply elem_of_app. right. apply elem_of_cons. by left.
Qed.

End DeduplicationAlgebra.

(** * Further properties of the nodes and of the graph *)

Section GraphRuns.

Implicit Types (svc : Services) (st state : AgentState).

Lemma runNode_call_fails (node : AgentState → Eff Update) st (c : Call)
    (e : JsError) :
  node st = ([c], inl e) → runNode node st = ([c], inl e).
Proof. intros Hnode. unfold runNode. by rewrite Hnode. Qed.

Lemma answerQueryDirectly_fails svc st e :
  model_invoke svc (queryModel svc) (directInput st) = inl e →
  answerQueryDirectly svc st
  = ([ModelInvoke (queryModel svc) (directInput st)], inl e).
Proof.
  unfold directInput. intros Hmodel. unfold answerQueryDirectly, invokeModel. simpl.
  rewrite normalizeMessage_HumanMessageText, Hmodel. reflexivity.
Qed.

Lemma retrieveDocuments_fails svc st e :
  retriever_invoke svc (query st) = inl e →
  retrieveDocuments svc st = ([RetrieverInvoke (query st)], inl e).
Proof.
  intros Hretriever. unfold retrieveDocuments, invokeRetriever.
  by rewrite Hretriever.
Qed.

Lemma generateResponse_fails svc st e :
  model_invoke svc (queryModel svc) (generationInput svc st (documents st)) = inl e →
  generateResponse svc st
  = ([ModelInvoke (queryModel svc) (generationInput svc st (documents st))], inl e).
Proof.
  unfold generationInput. intros Hmodel. unfold generateResponse, invokeModel.
  rewrite generateResponse_input, Hmodel. reflexivity.
Qed.

(** Every run of the graph is one of the six runs of [GraphRun]. *)
Lemma graph_runs svc st : GraphRun svc st (graph svc st).
Proof.
  destruct (model_invoke_structured svc (queryModel svc)
              (ROUTER_SYSTEM_PROMPT svc (query st))) as [e|out] eqn:Hrouter.
  { rewrite (graph_router_failure svc st e Hrouter). by constructor. }
  unfold graph. rewrite (runNode_checkQueryType svc st out Hrouter), bind_call_ok.
  destruct (out_route out) eqn:Hroute; simpl RouteTag_text;
    match goal with |- context [routeQuery ?s] => set (st1 := s) end.
  - rewrite (routeQuery_retrieve st1), bind_ret_l by done.
    destruct (retriever_invoke svc (query st)) as [e|docs] eqn:Hretriever.
    + rewrite (runNode_call_fails (retrieveDocuments svc) st1
                 (RetrieverInvoke (query st)) e
                 (retrieveDocuments_fails svc st1 e Hretriever)).
      subst st1; graph_run_simpl. by eapply run_retriever_fails.
    + rewrite (runNode_retrieveDocuments svc st1 docs Hretriever), bind_call_ok.
      match goal with |- context [runNode (generateResponse svc) ?s] =>
        set (st2 := s) end.
      destruct (model_invoke svc (queryModel svc)
                  (generationInput svc st (uniqueDocuments docs)))
        as [e|response] eqn:Hmodel.
      * rewrite (runNode_call_fails (generateResponse svc) st2
                   (ModelInvoke (queryModel svc)
                      (generationInput svc st (uniqueDocuments docs))) e
                   (generateResponse_fails svc st2 e Hmodel)).
        subst st2 st1; graph_run_simpl. by eapply run_generation_fails.
      * rewrite (runNode_generateResponse svc st2 response Hmodel).
        subst st2 st1; graph_run_simpl. by eapply run_retrieve.
  - rewrite (routeQuery_direct st1), bind_ret_l by done.
    destruct (model_invoke svc (queryModel svc) (directInput st))
      as [e|response] eqn:Hmodel.
    + rewrite (runNode_call_fails (answerQueryDirectly svc) st1
                 (ModelInvoke (queryModel svc) (directInput st)) e
                 (answerQueryDirectly_fails svc st1 e Hmodel)).
      subst st1; graph_run_simpl. by eapply run_direct_fails.
    + rewrite (runNode_answerQueryDirectly svc st1 response Hmodel).
      subst st1; graph_run_simpl. by eapply run_direct.
Qed.

Lemma directInput_normalized st : Forall is_normalized (directInput st).
Proof.
  unfold directInput. apply Forall_cons. split; [|constructor].
  rewrite <-normalizeMessage_HumanMessageText. apply normalizeMessage_is_normalized.
Qed.

Lemma generationInput_normalized svc st docs :
  Forall is_normalized (generationInput svc st docs).
Proof.
  unfold generationInput. apply Forall_app. split.
  - unfold normalizeMessages. apply Forall_forall. intros m' Hin.
    apply (list_elem_of_fmap normalizeMessage) in Hin as (m & -> & _).
    apply normalizeMessage_is_normalized.
  - apply Forall_cons. split; [|constructor].
    rewrite <-normalizeMessage_HumanMessageText.
    apply normalizeMessage_is_normalized.
Qed.

(** ** Properties of the nodes *)

(** X9.  Whatever the router model answers, the update of [checkQueryType]
    writes [route] only, and [routeQuery] accepts it in any state: after
    the router node the dispatch raises neither "Route is not set" nor
    "Invalid route". *)
Theorem checkQueryType_route_accepted svc st st' u :
  outcome (checkQueryType svc st) = inr u →
  upd_documents u = None ∧ upd_messages u = None
  ∧ (upd_route u = Some "retrieve" ∨ upd_route u = Some "direct")
  ∧ ∃ node, routeQuery (applyUpdate st' u) = ret node.
Proof.
  unfold checkQueryType, invokeStructured.
  destruct (model_invoke_structured _ _ _) as [e|out]; [discriminate|].
  unfold bind, ret, outcome; simpl. intros [= <-]; simpl.
  split; [done|]. split; [done|].
  destruct (out_route out); simpl.
  - split; [by left|]. exists retrieveDocumentsNode. by apply routeQuery_retrieve.
  - split; [by right|]. exists directAnswerNode. by apply routeQuery_direct.
Qed.

Lemma checkQueryType_route_accepted_witness :
  upd_documents (mkUpdate (Some "direct") None None) = None
  ∧ upd_messages (mkUpdate (Some "direct") None None) = None
  ∧ (upd_route (mkUpdate (Some "direct") None None) = Some "retrieve"
     ∨ upd_route (mkUpdate (Some "direct") None None) = Some "direct")
  ∧ ∃ node,
      routeQuery (applyUpdate (sample_state (Some "stale"))
                    (mkUpdate (Some "direct") None None)) = ret node.
Proof.
  apply (checkQueryType_route_accepted (sample_services direct) (sample_state None)
           (sample_state (Some "stale")) (mkUpdate (Some "direct") None None)).
  reflexivity.
Defined.

(** X10.  The router node, the retrieval node and the direct-answer node read
    nothing of the state but [query]: in two states with the same query
    they make the same calls with the same outcome, so the conversation
    history, the route and the documents of the state reach neither the
    router model, nor the retriever, nor the model of the direct answer. *)
Theorem nodes_read_query_only svc st st' :
  query st = query st' →
  checkQueryType svc st = checkQueryType svc st'
  ∧ retrieveDocuments svc st = retrieveDocuments svc st'
  ∧ answerQueryDirectly svc st = answerQueryDirectly svc st'.
Proof.
  intros Hq.
  unfold checkQueryType, retrieveDocuments, answerQueryDirectly. by rewrite Hq.
Qed.

Lemma nodes_read_query_only_witness :
  checkQueryType (sample_services direct) (sample_state None)
  = checkQueryType (sample_services direct)
      (mkState "What is the capital of France?" (Some "retrieve")
         [doc_bare_a] [msg_with_id])
  ∧ retrieveDocuments (sample_services direct) (sample_state None)
    = retrieveDocuments (sample_services direct)
        (mkState "What is the capital of France?" (Some "retrieve")
           [doc_bare_a] [msg_with_id])
  ∧ answerQueryDirectly (sample_services direct) (sample_state None)
    = answerQueryDirectly (sample_services direct)
        (mkState "What is the capital of France?" (Some "retrieve")
           [doc_bare_a] [msg_with_id]).
Proof.
  apply (nodes_read_query_only (sample_services direct) (sample_state None)
           (mkState "What is the capital of France?" (Some "retrieve")
              [doc_bare_a] [msg_with_id])).
  reflexivity.
Defined.

(** ** Properties of the graph *)


(** X12.  In every run, every input handed to the chat model is made of
    normalized turns: human or assistant turns without a [name] entry. *)
Theorem graph_model_inputs_normalized svc st :
  Forall call_input_normalized (calls (graph svc st)).
Proof.
  assert (∀ c, call_input_normalized (routerCall svc c)) as Hrouter by done.
  assert (∀ q, call_input_normalized (RetrieverInvoke q)) as Hretriever by done.
  assert (∀ s, call_input_normalized (ModelInvoke (queryModel svc) (directInput s)))
    as Hdirect by apply directInput_normalized.
  assert (∀ s docs, call_input_normalized
            (ModelInvoke (queryModel svc) (generationInput svc s docs)))
    as Hgeneration by apply generationInput_normalized.
  destruct (graph_runs svc st); graph_run_simpl;
    repeat match goal with
           | |- Forall call_input_normalized (_ :: _) =>
               apply Forall_cons_2; [by auto|]
           end;
    apply Forall_nil_2.
Qed.





(** X15.  The run does not depend on the [route] the state comes with: the
    router node sets it before the dispatch reads it. *)
Theorem graph_ignores_initial_route svc (q : string) (r r' : option string)
    (docs : list Document) (msgs : list BaseMessage) :
  graph svc (mkState q r docs msgs) = graph svc (mkState q r' docs msgs).
Proof.
  destruct (model_invoke_structured svc (queryModel svc)
              (ROUTER_SYSTEM_PROMPT svc q)) as [e|out] eqn:Hrouter.
  - by rewrite !(graph_router_failure _ _ e) by done.
  - unfold graph.
    by rewrite (runNode_checkQueryType svc (mkState q r docs msgs) out Hrouter),
      (runNode_checkQueryType svc (mkState q r' docs msgs) out Hrouter).
Qed.

(** The retrieval path, end to end, on the sample services. *)
Lemma graph_retrieve_path_witness :
  graph (sample_services retrieve) (sample_state None)
  = ([ModelInvokeStructured "query-model"
        "Route this query: What is the capital of France?";
      RetrieverInvoke "What is the capital of France?";
      ModelInvoke "query-model"
        [HumanMessageText
           "Context: alpha Question: What is the capital of France?"]],
     inr {| query := "What is the capital of France?"; route := Some "retrieve";
            documents := [doc_bare_a];
            messages := [HumanMessageText "What is the capital of France?";
                         AIMessage "Paris" ∅] |}).
Proof.
  apply (graph_retrieve_path (sample_services retrieve) (sample_state None)
           {| out_route := retrieve; directAnswer := Some "Paris" |}
           [doc_bare_a; doc_bare_b] (AIMessage "Paris" ∅)); reflexivity.
Defined.

End GraphRuns.
